(** * A Redis-backed job queue: the two-list hand-off protocol

    Shallow embedding of the queue worker of [nabindhami14/queues]
    (the Express/ioredis program with [app.post("/")], [acquireLock],
    [releaseLock], [execute] and [retry]), of the [execute] listing of
    its README and of the queue in memory that the README starts from,
    followed by the properties of the hand-off protocol.

    Modelling decisions.
    - The store keeps JSON text.  Every text the program writes is
      [JSON.stringify] of an object with the members [name], [id],
      [timestamp], [tries] in that order, absent members left out, so a
      text is represented by the record [job] of its members and
      [JSON.parse]/[JSON.stringify] are the identity on it.  Equality of
      records is equality of the texts ([lrem] compares texts).
    - [name] and [id] are opaque to the program; each is kept as the JSON
      text of the member, [None] when the request body had none.
    - [timestamp] and [tries] are JavaScript numbers that the program only
      ever sets to integers; they are integers of [Z] here.
    - Redis executes commands one at a time.  A command may raise (a
      rejected promise); which ones do is given by a fault plan consumed
      one flag per command.
    - The code between two suspension points of an [async] function runs
      without interleaving.  The suspension points kept are those at which
      the function really waits: the polling of [acquireLock] and the job
      body [timeConsumingFunction].  From the poll that takes a lock to
      the release, a call is one step: the commands other calls may issue
      meanwhile do not move the head it has read ([peeked_head_stable]),
      and the step is taken to end before the lock key expires.  The
      expiry of a lock key ([EX 10]) is an event of its own, so that a
      lock left set by a call that raised is freed again.
    - [Date.now()] is an input of the step; nothing is assumed of it. *)

From stdpp Require Import base tactics option strings numbers list.

Local Open Scope Z_scope.

(** * The model *)

(** ** Job records *)

Record job := Job {
  name : option string;
  id : option string;
  timestamp : option Z;
  tries : option Z
}.

#[global] Instance job_eq_dec : EqDecision job.
Proof. solve_decision. Defined.


(** ** The store *)

(** The two list keys, ["todo"] and ["processing"]. *)
Inductive queue := Todo | Processing.

#[global] Instance queue_eq_dec : EqDecision queue.
Proof. solve_decision. Defined.

(** The keys the program uses: the two lists, and the two lock keys
    ["todo-lock"] and ["processing-lock"], present ([true]) or absent. *)
Record redis := Redis {
  todo : list job;
  processing : list job;
  todo_lock : bool;
  processing_lock : bool
}.

Definition llist (k : queue) (r : redis) : list job :=
  match k with Todo => todo r | Processing => processing r end.

Definition set_llist (k : queue) (l : list job) (r : redis) : redis :=
  match k with
  | Todo => Redis l (processing r) (todo_lock r) (processing_lock r)
  | Processing => Redis (todo r) l (todo_lock r) (processing_lock r)
  end.

Definition lock (k : queue) (r : redis) : bool :=
  match k with Todo => todo_lock r | Processing => processing_lock r end.

Definition set_lock (k : queue) (b : bool) (r : redis) : redis :=
  match k with
  | Todo => Redis (todo r) (processing r) b (processing_lock r)
  | Processing => Redis (todo r) (processing r) (todo_lock r) b
  end.

(** ** Commands *)

(** A command maps the store to its reply and the new store, or to [None]
    when Redis answers with an error. *)
Definition command (A : Type) := redis → option (A * redis).

(** [RPUSH key value]: append at the tail, reply the new length. *)
Definition rpush (k : queue) (v : job) : command nat := λ r,
  let l := llist k r ++ [v] in Some (length l, set_llist k l r).

(** [LINDEX key index]: the element, [None] for the null reply. *)
Definition lindex (k : queue) (i : nat) : command (option job) := λ r,
  Some (llist k r !! i, r).

(** [LSET key index value]: an error when the index is out of range. *)
Definition lset (k : queue) (i : nat) (v : job) : command unit := λ r,
  if decide (i < length (llist k r))%nat
  then Some (tt, set_llist k (<[i:=v]> (llist k r)) r)
  else None.

(** [LMOVE src dst LEFT RIGHT]: pop the head of [src], push it at the tail
    of [dst]; the null reply when [src] is empty. *)
Definition lmove (src dst : queue) : command (option job) := λ r,
  match llist src r with
  | [] => Some (None, r)
  | x :: t =>
      let r' := set_llist src t r in
      Some (Some x, set_llist dst (llist dst r' ++ [x]) r')
  end.

(** Remove the first element equal to [v]. *)
Fixpoint remove_first (v : job) (l : list job) : list job :=
  match l with
  | [] => []
  | x :: t => if decide (x = v) then t else x :: remove_first v t
  end.

(** [LREM key 1 value]: remove the first occurrence, reply the number of
    removed elements. *)
Definition lrem1 (k : queue) (v : job) : command nat := λ r,
  let l := llist k r in
  Some (if decide (v ∈ l) then 1%nat else 0%nat, set_llist k (remove_first v l) r).

(** [LPOP key]: remove and reply the head. *)
Definition lpop (k : queue) : command (option job) := λ r,
  Some (head (llist k r), set_llist k (tail (llist k r)) r).

(** [SET key-lock "locked" NX EX 10]: set only if absent; the reply is
    ["OK"] ([true]) or null ([false]). *)
Definition set_nx (k : queue) : command bool := λ r,
  if lock k r then Some (false, r) else Some (true, set_lock k true r).

(** [DEL key-lock]. *)
Definition del (k : queue) : command unit := λ r,
  Some (tt, set_lock k false r).

(** [MULTI ... EXEC]: the queued commands run in order as one command;
    "if any command fails, revert everything back". *)
Fixpoint exec (cs : list (command unit)) : command unit := λ r,
  match cs with
  | [] => Some (tt, r)
  | c :: cs' =>
      match c r with
      | Some (_, r') => exec cs' r'
      | None => None
      end
  end.

Definition queued {A} (c : command A) : command unit := λ r,
  match c r with Some (_, r') => Some (tt, r') | None => None end.

(** ** The connection: the store, and the commands that will raise *)

Record conn := Conn { db : redis; faults : list bool }.

Inductive outcome (A : Type) := Ok (a : A) | Throw.
Arguments Ok {A} a.
Arguments Throw {A}.

(** An [async] computation up to its next suspension: a value or an
    exception, and the connection it leaves. *)
Definition io (A : Type) := conn → outcome A * conn.

Definition ret {A} (a : A) : io A := λ c, (Ok a, c).

Definition throw {A} : io A := λ c, (Throw, c).

Definition bind {A B} (m : io A) (f : A → io B) : io B := λ c,
  match m c with
  | (Ok a, c') => f a c'
  | (Throw, c') => (Throw, c')
  end.

(** [try { m } catch (e) { console.error(e) }]. *)
Definition try_catch (m : io unit) : io unit := λ c,
  match m c with
  | (Ok a, c') => (Ok a, c')
  | (Throw, c') => (Ok tt, c')
  end.

Declare Scope io_scope.
Delimit Scope io_scope with io.
Notation "x <- m ;; k" := (bind m (λ x, k))
  (at level 100, m at next level, k at level 200, right associativity) : io_scope.
Notation "m ;; k" := (bind m (λ _, k))
  (at level 100, k at level 200, right associativity) : io_scope.
Local Open Scope io_scope.

(** [await redis.cmd(...)]: the next flag of the plan decides whether the
    command raises before touching the store; an error reply raises too. *)
Definition await {A} (cmd : command A) : io A := λ c,
  match faults c with
  | true :: fs => (Throw, Conn (db c) fs)
  | fs =>
      match cmd (db c) with
      | Some (a, r) => (Ok a, Conn r (tail fs))
      | None => (Throw, Conn (db c) (tail fs))
      end
  end.

(** ** The program *)

(** [const MAX_JOBS = 3]. *)
Definition MAX_JOBS : Z := 3.

(** [app.post("/")]: [rpush("todo", JSON.stringify({ name, id }))] inside
    [try]/[catch]; the reply to the client does not depend on the push. *)
Definition post (name id : option string) : io unit :=
  try_catch (await (rpush Todo (Job name id None None)) ;; ret tt).

(** One poll of the interval of [acquireLock(key)]: the promise resolves
    when the [SET ... NX] took the key ([true]), keeps polling when it did
    not ([false]), and rejects when the command raises. *)
Definition acquireLock (key : queue) : io bool := await (set_nx key).

(** [releaseLock(key)]. *)
Definition releaseLock (key : queue) : io unit := await (del key).

(** [copy.timestamp = Date.now();
     copy.tries = copy.tries ? copy.tries + 1 : 1]
    ([undefined] and [0] are the falsy values [tries] can have). *)
Definition stamp (now : Z) (copy : job) : job :=
  Job (name copy) (id copy) (Some now)
      (Some match tries copy with
            | Some n => if n =? 0 then 1 else n + 1
            | None => 1
            end).

(** [timeConsumingFunction()]: resolves or rejects. *)
Definition timeConsumingFunction (ok : bool) : io unit :=
  if ok then ret tt else throw.

(** Where a call of [execute] that found [running < MAX_JOBS] is
    suspended: polling for the ["todo"] lock, in the job body, or polling
    for the ["processing"] lock. *)
Inductive cycle :=
  | AwaitTodo
  | Executing (copy : job)
  | AwaitProcessing (copy : job).

#[global] Instance cycle_eq_dec : EqDecision cycle.
Proof. solve_decision. Defined.

(** [execute], from a poll of [acquireLock("todo")] to the start of the
    job body.  [None]: the call reached the end of its [try] block. *)
Definition execute_claim (now : Z) : io (option cycle) :=
  locked <- acquireLock Todo ;;
  if (locked : bool) then
    newProcess <- await (lindex Todo 0) ;;
    match newProcess with
    | Some p =>
        let copy := stamp now p in
        await (exec [queued (lset Todo 0 copy);
                     queued (lmove Todo Processing)]) ;;
        releaseLock Todo ;;
        ret (Some (Executing copy))
    | None =>
        releaseLock Todo ;;
        ret None
    end
  else ret (Some AwaitTodo).

(** [execute], from a poll of [acquireLock("processing")] to the end of
    the [try] block. *)
Definition execute_resolve (copy : job) : io (option cycle) :=
  locked <- acquireLock Processing ;;
  if (locked : bool) then
    await (lrem1 Processing copy) ;;
    releaseLock Processing ;;
    ret None
  else ret (Some (AwaitProcessing copy)).

(** The [try] block of [execute], resumed where the call is suspended. *)
Definition execute_body (c : cycle) (now : Z) (ok : bool) : io (option cycle) :=
  match c with
  | AwaitTodo => execute_claim now
  | Executing copy =>
      timeConsumingFunction ok ;;
      ret (Some (AwaitProcessing copy))
  | AwaitProcessing copy => execute_resolve copy
  end.

(** [Date.now() - Number(processing.timestamp) >= 10 * 60 * 1000];
    [Number(undefined)] is [NaN] and every comparison with it is false. *)
Definition stale (now : Z) (p : job) : bool :=
  match timestamp p with
  | Some t => 10 * 60 * 1000 <=? now - t
  | None => false
  end.

(** [Number(processing.tries) < 3]. *)
Definition tries_left (p : job) : bool :=
  match tries p with
  | Some n => n <? 3
  | None => false
  end.

(** The [try] block of [retry], from a poll of
    [acquireLock("processing")]; [false]: the poll found the lock taken
    and the call keeps polling. *)
Definition retry_body (now : Z) : io bool :=
  locked <- acquireLock Processing ;;
  if (locked : bool) then
    res <- await (lindex Processing 0) ;;
    match res with
    | Some p =>
        (if stale now p then
           if tries_left p then
             await (exec [queued (lset Processing 0 p);
                          queued (lmove Processing Todo)])
           else
             await (lpop Processing) ;; ret tt
         else ret tt) ;;
        releaseLock Processing ;;
        ret true
    | None =>
        releaseLock Processing ;;
        ret true
    end
  else ret false.

(** ** The worker process *)

(** The store, the counter [running], the calls of [execute] that are
    suspended, and the number of calls of [retry] still polling. *)
Record worker := Worker {
  store : redis;
  running : Z;
  cycles : list cycle;
  sweepers : nat
}.

Inductive event :=
  | Post (name id : option string) (plan : list bool)
      (* a request to [POST /] *)
  | Tick
      (* the five-minute interval calls [execute()] *)
  | Advance (i : nat) (now : Z) (ok : bool) (plan : list bool)
      (* the [i]-th suspended call of [execute] resumes *)
  | SweepTick
      (* the ten-minute interval calls [retry()] *)
  | SweepPoll (now : Z) (plan : list bool)
      (* a call of [retry] polls for the lock *)
  | Expire (key : queue)
      (* the lock key reaches its expiry *).

(** [if (running < MAX_JOBS) { running += 1; try { ... ] up to the first
    suspension. *)
Definition execute_enter (w : worker) : worker :=
  if running w <? MAX_JOBS
  then Worker (store w) (running w + 1) (cycles w ++ [AwaitTodo]) (sweepers w)
  else w.

(** A suspended call resumes; when its [try] block ends, by its last
    statement or through [catch], [running -= 1]. *)
Definition execute_resume (i : nat) (now : Z) (ok : bool) (plan : list bool)
    (w : worker) : worker :=
  match cycles w !! i with
  | None => w
  | Some c =>
      match execute_body c now ok (Conn (store w) plan) with
      | (Ok (Some c'), k) =>
          Worker (db k) (running w) (<[i:=c']> (cycles w)) (sweepers w)
      | (_, k) =>
          Worker (db k) (running w - 1) (delete i (cycles w)) (sweepers w)
      end
  end.

(** [retry]: the whole body is inside [try]/[catch]. *)
Definition retry (now : Z) (plan : list bool) (w : worker) : worker :=
  match sweepers w with
  | O => w
  | S n =>
      match retry_body now (Conn (store w) plan) with
      | (Ok false, k) => Worker (db k) (running w) (cycles w) (sweepers w)
      | (_, k) => Worker (db k) (running w) (cycles w) n
      end
  end.

Definition step (e : event) (w : worker) : worker :=
  match e with
  | Post n i plan =>
      Worker (db (post n i (Conn (store w) plan)).2)
             (running w) (cycles w) (sweepers w)
  | Tick => execute_enter w
  | Advance i now ok plan => execute_resume i now ok plan w
  | SweepTick => Worker (store w) (running w) (cycles w) (S (sweepers w))
  | SweepPoll now plan => retry now plan w
  | Expire key =>
      Worker (set_lock key false (store w))
             (running w) (cycles w) (sweepers w)
  end.

(** The events are applied from the head of the list. *)
Definition run (evs : list event) (w : worker) : worker :=
  foldl (λ w e, step e w) w evs.

(** The process starts on an empty store. *)
Definition init : worker :=
  Worker (Redis [] [] false false) 0 [] 0.

(** ** The [execute] listing of the README

    The listing differs from the program in one statement: it has no
    [running += 1] after the test of [running]. *)
Module Readme.

Definition execute_enter (w : worker) : worker :=
  if running w <? MAX_JOBS
  then Worker (store w) (running w) (cycles w ++ [AwaitTodo]) (sweepers w)
  else w.

Definition step (e : event) (w : worker) : worker :=
  match e with
  | Tick => execute_enter w
  | _ => step e w
  end.

Definition run (evs : list event) (w : worker) : worker :=
  foldl (λ w e, step e w) w evs.

End Readme.

(** * The notions the properties are stated with *)

(** ** Plans without faults *)

Definition no_fault (plan : list bool) : Prop := Forall (λ b, b = false) plan.

(** ** The moves of the hand-off *)

(** [handoff now (t, p) (t', p')]: the lists [todo = t] and
    [processing = p] become [t'] and [p'] by one of the protocol's
    moves, or stay as they are. *)
Inductive handoff (now : Z) : list job * list job → list job * list job → Prop :=
  | handoff_none t p :
      handoff now (t, p) (t, p)
  | handoff_claim h t p :
      handoff now (h :: t, p) (t, p ++ [stamp now h])
  | handoff_done copy t p :
      handoff now (t, p) (t, remove_first copy p)
  | handoff_requeue h t p :
      stale now h = true → tries_left h = true →
      handoff now (t, h :: p) (t ++ [h], p)
  | handoff_discard h t p :
      stale now h = true → tries_left h = false →
      handoff now (t, h :: p) (t, p).

Definition lists (r : redis) : list job * list job := (todo r, processing r).

(** ** The commands of the others *)

(** [outsider k c]: the program issues the command [c] without holding
    the lock of the list [k].  The push of [POST /] holds no lock; the
    claim holds the ["todo"] lock only; the removal after a job body and
    the sweep hold the ["processing"] lock only. *)
Inductive outsider : queue → command unit → Prop :=
  | outsider_rpush k v :
      outsider k (queued (rpush Todo v))
  | outsider_claim v :
      outsider Processing
        (exec [queued (lset Todo 0 v); queued (lmove Todo Processing)])
  | outsider_lrem v :
      outsider Todo (queued (lrem1 Processing v))
  | outsider_reclaim v :
      outsider Todo
        (exec [queued (lset Processing 0 v); queued (lmove Processing Todo)])
  | outsider_lpop :
      outsider Todo (queued (lpop Processing)).

(** ** Tactics *)

(** Case analysis on the first four flags of a plan: no resumption
    issues more than four commands. *)
Ltac split_plan plan :=
  destruct plan as [|[] [|[] [|[] [|[] ?]]]].

(** Run a resumption on a store whose shape is known. *)
Ltac run_io :=
  repeat (simpl in *; unfold bind, ret, throw, await, acquireLock, releaseLock in *; simpl in *).

(** Discard the plans that have a fault. *)
Ltac kill_faults :=
  unfold no_fault in *;
  repeat match goal with
         | H : Forall _ (_ :: _) |- _ => apply Forall_cons in H as [? H]; try discriminate
         end.

(** ** Identifiers, tries, and the counter *)


(** The identifiers the requests carried, in the order of the requests. *)
Definition posted (evs : list event) : list (option string) :=
  omap (λ e, match e with Post _ i _ => Some i | _ => None end) evs.

(** What [tries] can be for a record waiting in ["todo"], and for a
    record in ["processing"]. *)
Definition waiting (j : job) : Prop :=
  tries j = None ∨ ∃ n, tries j = Some n ∧ 1 ≤ n ≤ 2.

Definition claimed (j : job) : Prop :=
  ∃ n, tries j = Some n ∧ 1 ≤ n ≤ 3.

Definition tries_bounded (tp : list job * list job) : Prop :=
  (∀ j, j ∈ tp.1 → waiting j) ∧ (∀ j, j ∈ tp.2 → claimed j).

(** The job bodies that are executing. *)
Definition executing (w : worker) : list job :=
  omap (λ c, match c with Executing copy => Some copy | _ => None end) (cycles w).

Definition counter_ok (w : worker) : Prop :=
  running w = Z.of_nat (length (cycles w)) ∧ running w ≤ MAX_JOBS.

(** ** The sweep of a head *)

(** The four ways through [retry] once the lock is taken. *)
Definition swept (now : Z) (r : redis) : redis :=
  match processing r with
  | [] => r
  | h :: p =>
      if stale now h then
        if tries_left h
        then Redis (todo r ++ [h]) p (todo_lock r) (processing_lock r)
        else Redis (todo r) p (todo_lock r) (processing_lock r)
      else r
  end.


(** The calls of [retry] that the interval makes in a sequence of
    events. *)
Fixpoint sweep_calls (evs : list event) : nat :=
  match evs with
  | [] => 0
  | SweepTick :: evs' => S (sweep_calls evs')
  | _ :: evs' => sweep_calls evs'
  end.

(** Events in which no call of [execute] resumes. *)
Definition sweeps_only (evs : list event) : Prop :=
  Forall (λ e, match e with Advance _ _ _ _ => False | _ => True end) evs.

(** ** The claims along a trace *)




(** ** States and traces used as instances *)



(** A job claimed at time 0 whose body failed, and a call of [retry]
    ten minutes later in which the poll takes the lock and the [lindex]
    that follows raises. *)
Definition sweep_with_failing_lindex : list event :=
  [Post (Some "a") (Some "1") []; Tick; Advance 0 0 true []; Advance 0 0 false [];
   SweepTick; SweepPoll 600000 [false; true]].

(** A store whose ["processing"] head is stale at time 600000 and has
    used its three tries. *)
Definition exhausted_head : redis :=
  Redis [] [Job (Some "a") (Some "1") (Some 0) (Some 3)] false false.


(** One job that fails every time: claimed, swept back after ten
    minutes, claimed again, swept back, claimed a third time, and popped
    by the fourth sweep. *)
Definition three_tries : list event :=
  [Post (Some "a") (Some "1") [];
   Tick; Advance 0 0 true []; Advance 0 5000 false [];
   SweepTick; SweepPoll 600000 [];
   Tick; Advance 0 900000 true []; Advance 0 905000 false [];
   SweepTick; SweepPoll 1500000 [];
   Tick; Advance 0 1800000 true []; Advance 0 1805000 false [];
   SweepTick; SweepPoll 2400000 []].

(** Four jobs posted, four ticks, four claims. *)
Definition four_claims : list event :=
  [Post (Some "a") (Some "1") []; Post (Some "b") (Some "2") [];
   Post (Some "c") (Some "3") []; Post (Some "d") (Some "4") [];
   Tick; Tick; Tick; Tick;
   Advance 0 10 true []; Advance 1 20 true [];
   Advance 2 30 true []; Advance 3 40 true []].

(** A fresh record at the head of ["todo"] and a call of [execute]
    polling for the lock. *)
Definition ready_to_claim : worker :=
  Worker (Redis [Job (Some "a") (Some "1") None None] [] false false) 1 [AwaitTodo] 0.

(** A job claimed at time 0 whose body has succeeded. *)
Definition body_succeeded : list event :=
  [Post (Some "a") (Some "1") []; Tick; Advance 0 0 true []; Advance 0 0 true []].

(** A record claimed once at time 0, in ["processing"], and a call of
    [retry] polling. *)
Definition sweeping_once_tried : worker :=
  Worker (Redis [Job (Some "b") (Some "2") None None]
                [Job (Some "a") (Some "1") (Some 0) (Some 1)] false false)
         0 [] 1.

(** Two stale records in ["processing"] and two calls of [retry]. *)
Definition two_stale : worker :=
  Worker (Redis [] [Job (Some "a") (Some "1") (Some 0) (Some 1);
                    Job (Some "b") (Some "2") (Some 0) (Some 3)] false false)
         0 [] 0.

Definition two_sweeps : list event :=
  [SweepTick; SweepPoll 600000 []; SweepTick; SweepPoll 600000 []].

(** ** Further notions and instances *)



(** The [name] and [id] of the requests of a trace. *)
Definition requests (evs : list event) : list (option string * option string) :=
  omap (λ e, match e with Post n i _ => Some (n, i) | _ => None end) evs.



(** Traces in which the lock key of [k] does not expire. *)
Definition no_expiry (k : queue) (evs : list event) : Prop :=
  Forall (λ e, e ≠ Expire k) evs.

(** A call of [execute] polling while the ["todo"] lock key is set. *)
Definition waiting_for_lock : worker :=
  Worker (Redis [Job (Some "a") (Some "1") None None] [] true false) 1 [AwaitTodo] 0.

(** The record a suspended call of [execute] holds. *)
Definition copy_of (c : cycle) : option job :=
  match c with
  | AwaitTodo => None
  | Executing copy | AwaitProcessing copy => Some copy
  end.

Definition copies (w : worker) : list job := omap copy_of (cycles w).

(** The records of a state: the two lists and the copies held by calls
    of [execute]. *)
Definition records (w : worker) : list job :=
  todo (store w) ++ processing (store w) ++ copies w.


Ltac stuck_done :=
  split; [reflexivity | first [reflexivity | apply prefix_app_r; reflexivity]].

(** A job claimed at time 0 whose body is still executing, and a call
    of [retry] polling. *)
Definition still_executing : worker :=
  Worker (Redis [] [Job (Some "a") (Some "1") (Some 0) (Some 1)] false false)
         1 [Executing (Job (Some "a") (Some "1") (Some 0) (Some 1))] 1.

(** ** The queue in memory of the README

    The first listing of the README keeps the jobs in an array of the
    process: [POST /] pushes [{ name, id }], and [execute], called every
    minute, shifts the first job and awaits its body, with no
    [try]/[catch]. *)
Module Memory.

Definition request : Type := option string * option string.

(** The array [queue], the counter [running], and the jobs whose body is
    executing. *)
Record state := State {
  queue : list request;
  running : Z;
  bodies : list request
}.

Inductive event :=
  | Post (name id : option string)
      (* a request to [POST /] *)
  | Tick
      (* the interval calls [execute()] *)
  | Settle (i : nat) (ok : bool)
      (* the body of the [i]-th executing job resolves or rejects *).

(** [queue.push({ name, id })]. *)
Definition post (name id : option string) (s : state) : state :=
  State (queue s ++ [(name, id)]) (running s) (bodies s).

(** [if (running < MAX_JOBS && queue.length !== 0) { running += 1;
     const { name, id } = queue.shift(); await timeConsumingFunction(name, id);
    ] up to the suspension.  Under the test the array is not empty. *)
Definition execute (s : state) : state :=
  if (running s <? MAX_JOBS) && negb (length (queue s) =? 0)%nat then
    match queue s with
    | job :: rest => State rest (running s + 1) (bodies s ++ [job])
    | [] => s
    end
  else s.

(** The [await] returns and [running -= 1] runs, or the [await] throws
    and the call of [execute] ends there, with a rejected promise. *)
Definition settle (i : nat) (ok : bool) (s : state) : state :=
  match bodies s !! i with
  | None => s
  | Some _ =>
      if ok
      then State (queue s) (running s - 1) (delete i (bodies s))
      else State (queue s) (running s) (delete i (bodies s))
  end.

Definition step (e : event) (s : state) : state :=
  match e with
  | Post n i => post n i s
  | Tick => execute s
  | Settle i ok => settle i ok s
  end.

Definition run (evs : list event) (s : state) : state :=
  foldl (λ s e, step e s) s evs.

Definition init : state := State [] 0 [].

(** Whether an event is the rejection of a job body that is executing. *)
Definition failure_of (e : event) (s : state) : nat :=
  match e with
  | Settle i false => match bodies s !! i with Some _ => 1 | None => 0 end
  | _ => 0
  end.

(** The job bodies that have rejected along a trace. *)
Fixpoint failures (evs : list event) (s : state) : nat :=
  match evs with
  | [] => 0
  | e :: evs' => (failure_of e s + failures evs' (step e s))%nat
  end.

(** The job a call of [execute] starts, if it starts one. *)
Definition start_of (e : event) (s : state) : option request :=
  match e with
  | Tick =>
      if (running s <? MAX_JOBS) && negb (length (queue s) =? 0)%nat
      then head (queue s) else None
  | _ => None
  end.

(** The jobs started along a trace, in the order of their start. *)
Fixpoint started (evs : list event) (s : state) : list request :=
  match evs with
  | [] => []
  | e :: evs' => option_list (start_of e s) ++ started evs' (step e s)
  end.

(** The requests of a trace. *)
Definition posted (evs : list event) : list request :=
  omap (λ e, match e with Post n i => Some (n, i) | _ => None end) evs.

End Memory.


(** * Proofs *)

Lemma no_fault_nil : no_fault [].
Proof. constructor. Qed.

Lemma no_fault_tail plan : no_fault plan → no_fault (tail plan).
Proof. destruct 1; simpl; [constructor | assumption]. Qed.

#[local] Hint Resolve no_fault_nil no_fault_tail : core.

(** ** What one resumption does to the two lists *)

(** The two transactions, as functions of the store. *)
Lemma exec_claim_txn copy r :
  exec [queued (lset Todo 0 copy); queued (lmove Todo Processing)] r =
    match todo r with
    | [] => None
    | _ :: t => Some (tt, Redis t (processing r ++ [copy]) (todo_lock r) (processing_lock r))
    end.
Proof. destruct r as [[|h t] p lt lp]; reflexivity. Qed.

Lemma exec_reclaim_txn v r :
  exec [queued (lset Processing 0 v); queued (lmove Processing Todo)] r =
    match processing r with
    | [] => None
    | _ :: p => Some (tt, Redis (todo r ++ [v]) p (todo_lock r) (processing_lock r))
    end.
Proof. destruct r as [t [|h p] lt lp]; reflexivity. Qed.

#[local] Hint Constructors handoff : core.

Lemma execute_claim_handoff now r plan :
  handoff now (lists r) (lists (db (execute_claim now (Conn r plan)).2)).
Proof.
  destruct r as [[|h t] p [] lp]; unfold execute_claim, lists;
    split_plan plan; run_io; auto.
Qed.

Lemma execute_resolve_handoff now copy r plan :
  handoff now (lists r) (lists (db (execute_resolve copy (Conn r plan)).2)).
Proof.
  destruct r as [t p lt []]; unfold execute_resolve, lists;
    split_plan plan; run_io; auto.
Qed.

Lemma execute_body_handoff c now ok r plan :
  handoff now (lists r) (lists (db (execute_body c now ok (Conn r plan)).2)).
Proof.
  destruct c as [|copy|copy]; simpl.
  - apply execute_claim_handoff.
  - unfold lists; destruct ok; run_io; auto.
  - apply execute_resolve_handoff.
Qed.

Lemma retry_body_handoff now r plan :
  handoff now (lists r) (lists (db (retry_body now (Conn r plan)).2)).
Proof.
  destruct r as [t [|h p] lt []]; unfold retry_body, lists;
    try (split_plan plan; run_io; auto; fail);
    destruct (stale now h) eqn:Hs;
    try (split_plan plan; run_io; rewrite ?Hs; run_io; auto; fail);
    destruct (tries_left h) eqn:Ht;
    split_plan plan; run_io; rewrite ?Hs, ?Ht; run_io; auto.
Qed.

Lemma handoff_refl now r : handoff now (lists r) (lists r).
Proof. apply handoff_none. Qed.

#[local] Hint Resolve handoff_refl : core.

(** Every event changes the lists by a hand-off move or by the push of
    the posted record. *)
Lemma step_lists e w :
  (∃ now, handoff now (lists (store w)) (lists (store (step e w)))) ∨
  (∃ n i plan, e = Post n i plan ∧
     lists (store (step e w)) =
       (todo (store w) ++ [Job n i None None], processing (store w))).
Proof.
  destruct e as [n i plan| |i now ok plan| |now plan|key]; simpl.
  - destruct (store w) as [t p lt lp].
    destruct plan as [|[] plan]; unfold lists; run_io;
      [right; eauto | left; exists 0; simpl; auto | right; eauto].
  - left. exists 0. unfold execute_enter. destruct (running w <? MAX_JOBS); simpl; auto.
  - left. exists now. unfold execute_resume.
    destruct (cycles w !! i) as [c|]; [|auto].
    pose proof (execute_body_handoff c now ok (store w) plan) as H.
    destruct (execute_body c now ok (Conn (store w) plan)) as [[[c'|]|] k]; exact H.
  - left. exists 0. simpl; auto.
  - left. exists now. unfold retry.
    destruct (sweepers w) as [|n]; [auto|].
    pose proof (retry_body_handoff now (store w) plan) as H.
    destruct (retry_body now (Conn (store w) plan)) as [[[]|] k]; exact H.
  - left. exists 0. destruct (store w) as [t p lt lp], key; unfold lists; simpl; auto.
Qed.

(** ** The head a lock holder has read *)

(** Between the [lindex] of a lock holder and its transaction, the
    commands of the others leave the head it has read where it is: they
    append to the list or work on the other list.  This is what lets a
    resumption be taken as one step. *)
Lemma peeked_head_stable k c r r' h :
  outsider k c →
  llist k r !! 0%nat = Some h → c r = Some (tt, r') →
  llist k r' !! 0%nat = Some h.
Proof.
  destruct 1 as [k v|v|v|v|]; destruct r as [t p lt lp].
  - destruct k; simpl; intros Hh [= <-]; simpl; [|exact Hh].
    destruct t; [discriminate Hh | exact Hh].
  - rewrite exec_claim_txn. simpl. destruct t as [|x t]; [discriminate|].
    intros Hh [= <-]. simpl. destruct p; [discriminate Hh | exact Hh].
  - simpl. intros Hh [= <-]. exact Hh.
  - rewrite exec_reclaim_txn. simpl. destruct p as [|x p]; [discriminate|].
    intros Hh [= <-]. simpl. destruct t; [discriminate Hh | exact Hh].
  - simpl. intros Hh [= <-]. exact Hh.
Qed.

(** ** Invariants of the reachable states *)

Lemma run_snoc evs e w : run (evs ++ [e]) w = step e (run evs w).
Proof. unfold run. rewrite foldl_snoc. reflexivity. Qed.


Lemma remove_first_sublist v l : remove_first v l `sublist_of` l.
Proof.
  induction l as [|x l IH]; simpl; [constructor|].
  destruct (decide (x = v)); [apply sublist_cons; reflexivity | apply sublist_skip, IH].
Qed.

Lemma elem_of_remove_first x v l : x ∈ remove_first v l → x ∈ l.
Proof. intros H. eapply elem_of_sublist; [exact H | apply remove_first_sublist]. Qed.




Lemma stamp_claimed now h : waiting h → claimed (stamp now h).
Proof.
  intros [Hn|(n & Hn & Hb)]; unfold claimed, stamp; simpl; rewrite Hn.
  - exists 1. split; [reflexivity | lia].
  - exists (n + 1). split; [|lia].
    destruct (Z.eqb_spec n 0); [lia | reflexivity].
Qed.

Lemma requeued_waiting h : claimed h → tries_left h = true → waiting h.
Proof.
  intros (n & Hn & Hb). unfold tries_left. rewrite Hn. intros Hlt.
  apply Z.ltb_lt in Hlt. right. exists n. split; [assumption | lia].
Qed.

Lemma handoff_tries now tp tp' :
  handoff now tp tp' → tries_bounded tp → tries_bounded tp'.
Proof.
  unfold tries_bounded.
  destruct 1 as [t p|h t p|copy t p|h t p Hs Hl|h t p Hs Hl]; simpl; intros [Ht Hp].
  - auto.
  - split.
    + intros j Hj. apply Ht. right. assumption.
    + intros j Hj. apply elem_of_app in Hj as [Hj|Hj]; [auto|].
      apply list_elem_of_singleton in Hj as ->. apply stamp_claimed, Ht. left.
  - split; [assumption|]. intros j Hj. apply Hp. eapply elem_of_remove_first, Hj.
  - split.
    + intros j Hj. apply elem_of_app in Hj as [Hj|Hj]; [auto|].
      apply list_elem_of_singleton in Hj as ->.
      apply requeued_waiting; [apply Hp; left | assumption].
    + intros j Hj. apply Hp. right. assumption.
  - split; [assumption|]. intros j Hj. apply Hp. right. assumption.
Qed.

Lemma tries_invariant evs : tries_bounded (lists (store (run evs init))).
Proof.
  induction evs as [|e evs IH] using rev_ind.
  - split; intros j Hj; inversion Hj.
  - rewrite run_snoc. set (w := run evs init) in *.
    destruct (step_lists e w) as [[now H]|(n & i & plan & -> & H)].
    + eapply handoff_tries; eassumption.
    + rewrite H. destruct IH as [Ht Hp]. split; [|assumption]. simpl.
      intros j Hj. apply elem_of_app in Hj as [Hj|Hj]; [auto|].
      apply list_elem_of_singleton in Hj as ->. left. reflexivity.
Qed.

Lemma executing_le_cycles w : (length (executing w) ≤ length (cycles w))%nat.
Proof.
  unfold executing, omap. induction (cycles w) as [|[] cs IH]; simpl; lia.
Qed.

Lemma step_counter e w : counter_ok w → counter_ok (step e w).
Proof.
  unfold counter_ok, MAX_JOBS. intros [Hr Hm].
  destruct e as [n i plan| |i now ok plan| |now plan|key]; simpl; try (split; assumption).
  - unfold execute_enter. destruct (Z.ltb_spec (running w) MAX_JOBS); simpl; [|auto].
    rewrite length_app, Nat2Z.inj_add. change (Z.of_nat (length [AwaitTodo])) with 1. unfold MAX_JOBS in *. split; lia.
  - unfold execute_resume. destruct (cycles w !! i) as [c|] eqn:Hc; [|auto].
    assert (Hlen : (length (delete i (cycles w)) = length (cycles w) - 1)%nat)
      by (apply length_delete; eauto).
    apply lookup_lt_Some in Hc.
    destruct (execute_body c now ok (Conn (store w) plan)) as [[[c'|]|] k]; simpl.
    + rewrite length_insert. auto.
    + split; lia.
    + split; lia.
  - unfold retry. destruct (sweepers w); [auto|].
    destruct (retry_body now (Conn (store w) plan)) as [[[]|] k]; simpl; auto.
Qed.

Lemma counter_invariant evs : counter_ok (run evs init).
Proof.
  induction evs as [|e evs IH] using rev_ind.
  - split; [reflexivity | unfold MAX_JOBS; simpl; lia].
  - rewrite run_snoc. apply step_counter, IH.
Qed.

(** ** Resumptions that meet no fault *)

Lemma post_pushed n i plan r :
  head plan ≠ Some true →
  db (post n i (Conn r plan)).2 =
    Redis (todo r ++ [Job n i None None]) (processing r) (todo_lock r) (processing_lock r).
Proof. destruct plan as [|[] plan]; simpl; intros H; [reflexivity | congruence | reflexivity]. Qed.

Lemma post_raised n i plan r :
  head plan = Some true → db (post n i (Conn r plan)).2 = r.
Proof. destruct plan as [|[] plan]; simpl; intros H; [congruence | reflexivity | congruence]. Qed.

Lemma execute_claim_ok now plan r h t :
  no_fault plan → todo_lock r = false → todo r = h :: t →
  (execute_claim now (Conn r plan)).1 = Ok (Some (Executing (stamp now h))) ∧
  db (execute_claim now (Conn r plan)).2 =
    Redis t (processing r ++ [stamp now h]) false (processing_lock r).
Proof.
  destruct r as [t0 p lt lp]. simpl. intros Hp -> ->.
  unfold execute_claim. split_plan plan; kill_faults; run_io; auto.
Qed.

Lemma execute_resolve_ok copy plan r :
  no_fault plan → processing_lock r = false →
  (execute_resolve copy (Conn r plan)).1 = Ok None ∧
  db (execute_resolve copy (Conn r plan)).2 =
    Redis (todo r) (remove_first copy (processing r)) (todo_lock r) false.
Proof.
  destruct r as [t0 p lt lp]. simpl. intros Hp ->.
  unfold execute_resolve. split_plan plan; kill_faults; run_io; auto.
Qed.

Lemma retry_body_ok now plan r :
  no_fault plan → processing_lock r = false →
  (retry_body now (Conn r plan)).1 = Ok true ∧
  db (retry_body now (Conn r plan)).2 = swept now r.
Proof.
  destruct r as [t0 [|h p] lt lp]; simpl; intros Hp ->; unfold retry_body, swept; simpl.
  - split_plan plan; kill_faults; run_io; auto.
  - destruct (stale now h) eqn:Hs; [destruct (tries_left h) eqn:Ht|];
      split_plan plan; kill_faults; run_io; rewrite ?Hs, ?Ht; run_io; auto.
Qed.

(** With or without faults, a call of [retry] leaves the lists as they
    are or as the sweep of the head makes them. *)
Lemma retry_body_lists now r plan :
  lists (db (retry_body now (Conn r plan)).2) = lists r ∨
  lists (db (retry_body now (Conn r plan)).2) = lists (swept now r).
Proof.
  destruct r as [t [|h p] lt []]; unfold retry_body, swept, lists; simpl;
    try (split_plan plan; run_io; auto; fail);
    destruct (stale now h) eqn:Hs;
    try (split_plan plan; run_io; rewrite ?Hs; run_io; auto; fail);
    destruct (tries_left h) eqn:Ht;
    split_plan plan; run_io; rewrite ?Hs, ?Ht; run_io; auto.
Qed.

Lemma retry_lists now plan w :
  lists (store (retry now plan w)) = lists (store w) ∨
  lists (store (retry now plan w)) = lists (swept now (store w)).
Proof.
  unfold retry. destruct (sweepers w) as [|m]; [auto|].
  pose proof (retry_body_lists now (store w) plan) as H.
  destruct (retry_body now (Conn (store w) plan)) as [[[]|] k]; exact H.
Qed.

(** * The scenarios of the specification *)

(** Scenario A: a job is posted, claimed at time 1000 with an empty
    ["processing"], and its body succeeds. *)
Example scenario_claim_then_success :
  store (run [Post (Some "a") (Some "1") []; Tick; Advance 0 1000 true []] init) =
    Redis [] [Job (Some "a") (Some "1") (Some 1000) (Some 1)] false false ∧
  run [Post (Some "a") (Some "1") []; Tick; Advance 0 1000 true [];
       Advance 0 6000 true []; Advance 0 11000 true []] init = init.
Proof. split; reflexivity. Qed.

(** Scenarios B, C and D: the head of ["processing"] one minute after
    its claim, eleven minutes after its claim with one try, and stale
    with three tries. *)
Example scenario_sweeps :
  swept 60000 (store sweeping_once_tried) = store sweeping_once_tried ∧
  swept 660000 (store sweeping_once_tried) =
    Redis [Job (Some "b") (Some "2") None None;
           Job (Some "a") (Some "1") (Some 0) (Some 1)] [] false false ∧
  swept 660000 exhausted_head = Redis [] [] false false.
Proof. repeat split. Qed.

(** Scenario E: two calls of [execute] poll for the lock one after the
    other on a ["todo"] of two records; each takes one head. *)
Example scenario_two_dispatchers :
  store (run [Post (Some "a") (Some "1") []; Post (Some "b") (Some "2") [];
              Tick; Tick; Advance 0 1000 true []; Advance 1 1001 true []] init) =
    Redis [] [Job (Some "a") (Some "1") (Some 1000) (Some 1);
              Job (Some "b") (Some "2") (Some 1001) (Some 1)] false false.
Proof. reflexivity. Qed.

(** * Properties *)

(** ** The hand-off keeps jobs apart *)




(** ** The sweeper and its lock *)

(** The lock is released on the four ways through [retry] on which no
    command raises. *)
Lemma retry_releases_without_fault now plan r :
  no_fault plan → processing_lock r = false →
  processing_lock (db (retry_body now (Conn r plan)).2) = false.
Proof.
  intros Hp Hl. destruct (retry_body_ok now plan r Hp Hl) as [_ ->].
  unfold swept. destruct (processing r) as [|h p]; [assumption|].
  destruct (stale now h); [destruct (tries_left h)|]; simpl; assumption.
Qed.

(** C2 does not hold of the code: whatever the store holds, when the poll
    of [retry] takes the ["processing"] lock and the next command
    ([lindex]) raises, control goes to [catch] and the lock is still set
    when [retry] returns; likewise when the transaction or [lpop] raises
    on a stale head.  On [sweep_with_failing_lindex] the call of [retry]
    has ended and the lock key is left in the store. *)
Theorem retry_error_keeps_lock :
  (∀ now r,
     let k := retry_body now (Conn (set_lock Processing false r) [false; true]) in
     k.1 = Throw ∧ processing_lock (db k.2) = true) ∧
  (∀ now r h p,
     processing r = h :: p → stale now h = true →
     let k := retry_body now (Conn (set_lock Processing false r) [false; false; true]) in
     k.1 = Throw ∧ processing_lock (db k.2) = true) ∧
  (let w := run sweep_with_failing_lindex init in
   sweepers w = 0%nat ∧ processing_lock (store w) = true).
Proof.
  split; [|split].
  - intros now [t p lt lp]. split; reflexivity.
  - intros now [t p0 lt lp] h p. simpl. intros -> Hs.
    unfold retry_body. run_io. rewrite Hs.
    destruct (tries_left h); run_io; split; reflexivity.
  - split; reflexivity.
Qed.

Lemma retry_error_keeps_lock_witness :
  (retry_body 600000
     (Conn (set_lock Processing false exhausted_head) [false; false; true])).1 = Throw ∧
  processing_lock
    (db (retry_body 600000
           (Conn (set_lock Processing false exhausted_head) [false; false; true])).2) = true.
Proof.
  exact (proj1 (proj2 retry_error_keeps_lock) 600000 exhausted_head _ _ eq_refl eq_refl).
Defined.

(** ** Bounded retries *)












(** ** The bound on concurrent job bodies *)

(** X1: the program keeps the bound: in every state the worker reaches,
    [running] is the number of calls of [execute] in progress, it lies
    between 0 and [MAX_JOBS], and at most [MAX_JOBS] job bodies execute. *)
Theorem program_concurrency_bound evs :
  let w := run evs init in
  running w = Z.of_nat (length (cycles w)) ∧
  0 ≤ running w ≤ MAX_JOBS ∧
  (length (executing w) ≤ 3)%nat.
Proof.
  intros w. destruct (counter_invariant evs) as [Hr Hm]. fold w in Hr, Hm.
  pose proof (executing_le_cycles w). unfold MAX_JOBS in *.
  repeat split; [assumption | lia | assumption | lia].
Qed.

(** C4 does not hold of the [execute] listing of the README, which has
    no [running += 1]: one tick on the empty queue ends with
    [running = -1]; and on [four_claims] the test lets the fourth tick
    through, four job bodies execute at once and [running] is still 0,
    where the program stops at three. *)
Theorem readme_execute_never_counts :
  running (Readme.run [Tick; Advance 0 0 true []] init) = -1 ∧
  length (executing (Readme.run four_claims init)) = 4%nat ∧
  running (Readme.run four_claims init) = 0 ∧
  length (executing (run four_claims init)) = 3%nat ∧
  running (run four_claims init) = 3.
Proof. repeat split. Qed.

(** ** The claim *)


Lemma handoff_records now t p t' p' j :
  handoff now (t, p) (t', p') → j ∈ t' ++ p' →
  j ∈ t ++ p ∨ ∃ h, head t = Some h ∧ j = stamp now h.
Proof.
  inversion 1 as [t0 p0|h t0 p0|copy t0 p0|h t0 p0 Hs Hl|h t0 p0 Hs Hl]; subst;
    rewrite !elem_of_app.
  - auto.
  - rewrite list_elem_of_singleton, elem_of_cons.
    intros [Hj|[Hj| ->]]; [auto | auto | right; exists h; auto].
  - intros [Hj|Hj]; [auto|]. left. right. eapply elem_of_remove_first, Hj.
  - rewrite list_elem_of_singleton, elem_of_cons.
    intros [[Hj| ->]|Hj]; auto.
  - rewrite elem_of_cons. intros [Hj|Hj]; auto.
Qed.

Lemma execute_resume_claim w i now ok plan h t :
  cycles w !! i = Some AwaitTodo →
  todo_lock (store w) = false → no_fault plan → todo (store w) = h :: t →
  execute_resume i now ok plan w =
    Worker (Redis t (processing (store w) ++ [stamp now h]) false (processing_lock (store w)))
           (running w) (<[i:=Executing (stamp now h)]> (cycles w)) (sweepers w).
Proof.
  intros Hc Hl Hp Ht. unfold execute_resume. rewrite Hc. simpl.
  destruct (execute_claim_ok now plan (store w) h t Hp Hl Ht) as [Hv Hd].
  destruct (execute_claim now (Conn (store w) plan)) as [o k]. simpl in *. subst o.
  rewrite Hd. reflexivity.
Qed.



(** ** The end of a job body *)





(** ** The producer *)

Lemma worker_eta w : Worker (store w) (running w) (cycles w) (sweepers w) = w.
Proof. destruct w; reflexivity. Qed.

(** C7, as amended: [POST /] with [name] and [id] builds the record
    [{ name, id }], which has neither a [tries] nor a [timestamp] member;
    when the [rpush] does not raise, the record is appended at the tail of
    ["todo"], so the list is one longer, and nothing else in the state
    changes, neither ["processing"] nor a lock key nor the worker's
    counter; when the [rpush] raises, the state is unchanged. *)
Theorem post_appends_untried_record n i plan w :
  tries (Job n i None None) = None ∧
  timestamp (Job n i None None) = None ∧
  (head plan ≠ Some true →
   step (Post n i plan) w =
     Worker (Redis (todo (store w) ++ [Job n i None None]) (processing (store w))
                   (todo_lock (store w)) (processing_lock (store w)))
            (running w) (cycles w) (sweepers w) ∧
   length (todo (store (step (Post n i plan) w))) = S (length (todo (store w)))) ∧
  (head plan = Some true → step (Post n i plan) w = w).
Proof.
  split; [reflexivity|]. split; [reflexivity|]. split.
  - intros Hp. simpl. rewrite (post_pushed n i plan (store w) Hp). split; [reflexivity|].
    simpl. rewrite length_app. simpl. lia.
  - intros Hp. simpl. rewrite (post_raised n i plan (store w) Hp). apply worker_eta.
Qed.

Lemma post_appends_untried_record_witness :
  head (@nil bool) ≠ Some true ∧
  step (Post (Some "a") (Some "1") []) init =
    Worker (Redis [Job (Some "a") (Some "1") None None] [] false false) 0 [] 0.
Proof.
  assert (H : head (@nil bool) ≠ Some true) by discriminate.
  split; [exact H|].
  exact (proj1 (proj1 (proj2 (proj2 (post_appends_untried_record
                                      (Some "a") (Some "1") [] init))) H)).
Defined.

(** C7, as stated, fails: the record that [POST /] appends has no
    [tries] member, not a [tries] member equal to 0. *)
Lemma posted_record_has_no_tries :
  ¬ (∀ n i w, ∃ j,
       todo (store (step (Post n i []) w)) = todo (store w) ++ [j] ∧
       tries j = Some 0).
Proof.
  intros H. destruct (H (Some "a") (Some "1") init) as (j & Hj & Ht).
  simpl in Hj. injection Hj as <-. discriminate Ht.
Qed.

(** The difference shows in the sweeper: a stale head without [tries] is
    popped, one with [tries] equal to 0 is moved to ["todo"]. *)
Remark untried_is_not_zero_tries now n i t r :
  let with_tries o := Redis (todo r) [Job n i (Some t) o] (todo_lock r) false in
  10 * 60 * 1000 ≤ now - t →
  swept now (with_tries None) = Redis (todo r) [] (todo_lock r) false ∧
  swept now (with_tries (Some 0)) =
    Redis (todo r ++ [Job n i (Some t) (Some 0)]) [] (todo_lock r) false.
Proof.
  intros with_tries Hs. unfold swept, stale, with_tries. simpl.
  destruct (Z.leb_spec (10 * 60 * 1000) (now - t)); [|lia]. split; reflexivity.
Qed.

(** ** The sweep of the head of the in-flight list *)

Lemma retry_swept now plan w m :
  sweepers w = S m → processing_lock (store w) = false → no_fault plan →
  step (SweepPoll now plan) w =
    Worker (swept now (store w)) (running w) (cycles w) m.
Proof.
  intros Hm Hl Hp. simpl. unfold retry. rewrite Hm.
  destruct (retry_body_ok now plan (store w) Hp Hl) as [Hv Hd].
  destruct (retry_body now (Conn (store w) plan)) as [o k]. simpl in *. subst o.
  rewrite Hd. reflexivity.
Qed.

(** C8: a sweep that takes the lock, with no command raising, and finds
    at the head of ["processing"] a record whose [timestamp] is ten
    minutes old or older and whose [tries] is below 3 moves that record,
    with every member as it was, to the tail of ["todo"], and changes
    nothing else but the end of the call of [retry]. *)
Theorem stale_head_requeued now plan w m h p ts n :
  sweepers w = S m → processing_lock (store w) = false → no_fault plan →
  processing (store w) = h :: p →
  timestamp h = Some ts → 10 * 60 * 1000 ≤ now - ts →
  tries h = Some n → n < 3 →
  step (SweepPoll now plan) w =
    Worker (Redis (todo (store w) ++ [h]) p (todo_lock (store w)) false)
           (running w) (cycles w) m.
Proof.
  intros Hm Hl Hp Hh Hts Hs Hn Hlt. rewrite (retry_swept now plan w m Hm Hl Hp).
  unfold swept, stale, tries_left. rewrite Hh, Hts, Hn, Hl.
  destruct (Z.leb_spec (10 * 60 * 1000) (now - ts)); [|lia].
  destruct (Z.ltb_spec n 3); [reflexivity | lia].
Qed.

Lemma stale_head_requeued_witness :
  (sweepers sweeping_once_tried = 1%nat ∧
   10 * 60 * 1000 ≤ 660000 - 0 ∧ 1 < 3) ∧
  step (SweepPoll 660000 []) sweeping_once_tried =
    Worker (Redis [Job (Some "b") (Some "2") None None;
                   Job (Some "a") (Some "1") (Some 0) (Some 1)] [] false false)
           0 [] 0.
Proof.
  split; [repeat split; lia|].
  exact (stale_head_requeued 660000 [] sweeping_once_tried 0%nat
           (Job (Some "a") (Some "1") (Some 0) (Some 1)) [] 0 1
           eq_refl eq_refl no_fault_nil eq_refl eq_refl
           ltac:(vm_compute; discriminate) eq_refl eq_refl).
Defined.

(** C9: a sweep that takes the lock, with no command raising, and finds
    at the head of ["processing"] a record whose [timestamp] is less than
    ten minutes old leaves the store as it was, both lists unchanged and
    the lock released; the call of [retry] has ended. *)
Theorem young_head_untouched now plan w m h p ts :
  sweepers w = S m → processing_lock (store w) = false → no_fault plan →
  processing (store w) = h :: p →
  timestamp h = Some ts → now - ts < 10 * 60 * 1000 →
  step (SweepPoll now plan) w = Worker (store w) (running w) (cycles w) m ∧
  processing_lock (store (step (SweepPoll now plan) w)) = false.
Proof.
  intros Hm Hl Hp Hh Hts Hs. rewrite (retry_swept now plan w m Hm Hl Hp).
  unfold swept, stale. rewrite Hh, Hts.
  destruct (Z.leb_spec (10 * 60 * 1000) (now - ts)); [lia|]. split; [reflexivity|exact Hl].
Qed.

Lemma young_head_untouched_witness :
  (sweepers sweeping_once_tried = 1%nat ∧ 60000 - 0 < 10 * 60 * 1000) ∧
  step (SweepPoll 60000 []) sweeping_once_tried =
    Worker (store sweeping_once_tried) 0 [] 0.
Proof.
  split; [split; [reflexivity | lia]|].
  exact (proj1 (young_head_untouched 60000 [] sweeping_once_tried 0%nat
                  (Job (Some "a") (Some "1") (Some 0) (Some 1)) [] 0
                  eq_refl eq_refl no_fault_nil eq_refl eq_refl eq_refl)).
Defined.

(** ** One head per sweep *)

Lemma swept_processing now r :
  processing (swept now r) = processing r ∨
  processing (swept now r) = tail (processing r).
Proof.
  unfold swept. destruct (processing r) as [|h p] eqn:Hp; [auto|].
  destruct (stale now h); [destruct (tries_left h)|]; simpl; auto.
Qed.

Lemma swept_todo now r :
  todo (swept now r) = todo r ∨
  ∃ h, head (processing r) = Some h ∧ todo (swept now r) = todo r ++ [h].
Proof.
  unfold swept. destruct (processing r) as [|h p] eqn:Hp; [auto|].
  destruct (stale now h); [destruct (tries_left h)|]; simpl; eauto.
Qed.

Lemma poll_processing now plan w :
  processing (store (step (SweepPoll now plan) w)) = processing (store w) ∨
  processing (store (step (SweepPoll now plan) w)) = tail (processing (store w)).
Proof.
  simpl. destruct (retry_lists now plan w) as [H|H]; unfold lists in H;
    injection H as _ ->; [auto | apply swept_processing].
Qed.

Lemma poll_todo now plan w :
  todo (store (step (SweepPoll now plan) w)) = todo (store w) ∨
  ∃ h, head (processing (store w)) = Some h ∧
       todo (store (step (SweepPoll now plan) w)) = todo (store w) ++ [h].
Proof.
  simpl. destruct (retry_lists now plan w) as [H|H]; unfold lists in H;
    injection H as -> _; [auto | apply swept_todo].
Qed.

Lemma length_tail_le {A} (l : list A) : (length l ≤ S (length (tail l)))%nat.
Proof. destruct l; simpl; lia. Qed.

Lemma sweep_calls_cons e evs :
  sweep_calls (e :: evs) = (sweep_calls [e] + sweep_calls evs)%nat.
Proof. destruct e; reflexivity. Qed.

(** A poll that finds the lock taken changes nothing. *)
Lemma retry_body_waiting now r plan :
  (retry_body now (Conn r plan)).1 = Ok false →
  db (retry_body now (Conn r plan)).2 = r.
Proof.
  destruct r as [t [|h p] lt []]; unfold retry_body;
    try (split_plan plan; run_io; congruence);
    destruct (stale now h) eqn:Hs;
    try (split_plan plan; run_io; rewrite ?Hs; run_io; congruence);
    destruct (tries_left h) eqn:Ht;
    split_plan plan; run_io; rewrite ?Hs, ?Ht; run_io; congruence.
Qed.

(** A call of [retry] that takes a record from ["processing"] ends. *)
Lemma poll_ends_call now plan w :
  (length (processing (store w)) + sweepers (step (SweepPoll now plan) w) ≤
     length (processing (store (step (SweepPoll now plan) w))) + sweepers w)%nat.
Proof.
  pose proof (poll_processing now plan w) as Hp. simpl in Hp |- *.
  unfold retry in *. destruct (sweepers w) as [|m] eqn:Hm; [rewrite Hm; lia|].
  pose proof (retry_body_waiting now (store w) plan) as Hw.
  pose proof (length_tail_le (processing (store w))) as Hl.
  destruct (retry_body now (Conn (store w) plan)) as [[[]|] k]; simpl in *.
  - destruct Hp as [Hp|Hp]; rewrite Hp; lia.
  - rewrite Hw by reflexivity. lia.
  - destruct Hp as [Hp|Hp]; rewrite Hp; lia.
Qed.

Lemma step_sweeps_only e w :
  match e with Advance _ _ _ _ => False | _ => True end →
  (length (processing (store w)) + sweepers (step e w) ≤
     length (processing (store (step e w))) + sweepers w + sweep_calls [e])%nat.
Proof.
  destruct e as [n i plan| |i now ok plan| |now plan|key]; intros He.
  - simpl. destruct plan as [|[] plan]; simpl; lia.
  - unfold step, execute_enter. destruct (running w <? MAX_JOBS); simpl; lia.
  - destruct He.
  - simpl. lia.
  - pose proof (poll_ends_call now plan w). simpl sweep_calls. lia.
  - simpl. destruct (store w) as [t p lt lp], key; simpl; lia.
Qed.

Lemma run_sweeps_only evs w :
  sweeps_only evs →
  (length (processing (store w)) + sweepers (run evs w) ≤
     length (processing (store (run evs w))) + sweepers w + sweep_calls evs)%nat.
Proof.
  revert w. induction evs as [|e evs IH]; intros w Hs; [simpl; lia|].
  apply Forall_cons in Hs as [He Hs]. specialize (IH (step e w) Hs).
  change (run (e :: evs) w) with (run evs (step e w)).
  rewrite sweep_calls_cons. pose proof (step_sweeps_only e w He). lia.
Qed.

(** C10: a call of [retry] reads and writes nothing of ["processing"]
    but its head: afterwards the list is what it was or what it was
    without its head, and ["todo"] is what it was or has that head
    appended; a call that takes a record ends, so over events in which
    no call of [execute] resumes, ["processing"] loses at most one record
    per call of [retry], and emptying a ["processing"] list of [n]
    records, with no call of [retry] already under way, takes at least
    [n] calls. *)
Theorem one_head_per_sweep :
  (∀ now plan w,
     let w' := step (SweepPoll now plan) w in
     (processing (store w') = processing (store w) ∨
      processing (store w') = tail (processing (store w))) ∧
     (todo (store w') = todo (store w) ∨
      ∃ h, head (processing (store w)) = Some h ∧
           todo (store w') = todo (store w) ++ [h]) ∧
     (length (processing (store w)) + sweepers w' ≤
        length (processing (store w')) + sweepers w)%nat) ∧
  (∀ evs w, sweeps_only evs →
     (length (processing (store w)) + sweepers (run evs w) ≤
        length (processing (store (run evs w))) + sweepers w + sweep_calls evs)%nat) ∧
  (∀ evs w, sweeps_only evs → sweepers w = 0%nat →
     processing (store (run evs w)) = [] →
     (length (processing (store w)) ≤ sweep_calls evs)%nat).
Proof.
  split; [|split].
  - intros now plan w w'.
    split; [apply poll_processing | split; [apply poll_todo | apply poll_ends_call]].
  - apply run_sweeps_only.
  - intros evs w Hs H0 He. pose proof (run_sweeps_only evs w Hs) as H.
    rewrite He, H0 in H. simpl in H. lia.
Qed.

Lemma one_head_per_sweep_witness :
  (sweeps_only two_sweeps ∧ sweepers two_stale = 0%nat ∧
   processing (store (run two_sweeps two_stale)) = []) ∧
  (length (processing (store two_stale)) ≤ sweep_calls two_sweeps)%nat.
Proof.
  assert (Hs : sweeps_only two_sweeps) by (repeat constructor).
  split; [split; [exact Hs | split; reflexivity]|].
  exact (proj2 (proj2 one_head_per_sweep) two_sweeps two_stale Hs eq_refl eq_refl).
Defined.

(** * Further properties of the code *)

(** ** Locks in traces without faults *)





(** ** The error paths of [execute] *)

(** X3: [execute] has no [finally] either.  When the poll takes the
    ["todo"] lock and [lindex] raises, or the transaction raises, the
    call ends through [catch] with [running] decremented, the lists as
    they were and the lock key still set.  When the transaction has run
    and it is [releaseLock] that raises, the stamped record is already in
    ["processing"], its job body is never started, and the lock key is
    still set. *)
Theorem execute_error_keeps_lock w i now ok :
  cycles w !! i = Some AwaitTodo → todo_lock (store w) = false →
  let ended r := Worker r (running w - 1) (delete i (cycles w)) (sweepers w) in
  step (Advance i now ok [false; true]) w = ended (set_lock Todo true (store w)) ∧
  ∀ h t, todo (store w) = h :: t →
    step (Advance i now ok [false; false; true]) w =
      ended (set_lock Todo true (store w)) ∧
    step (Advance i now ok [false; false; false; true]) w =
      ended (Redis t (processing (store w) ++ [stamp now h]) true
                   (processing_lock (store w))).
Proof.
  intros Hc Hl ended. unfold ended. simpl. unfold execute_resume. rewrite Hc.
  destruct (store w) as [t0 p lt lp]. simpl in Hl. subst lt. split.
  - destruct t0; reflexivity.
  - intros h t. simpl. intros ->. split; reflexivity.
Qed.

Lemma execute_error_keeps_lock_witness :
  (cycles ready_to_claim !! 0%nat = Some AwaitTodo ∧
   todo_lock (store ready_to_claim) = false) ∧
  step (Advance 0 1000 true [false; true]) ready_to_claim =
    Worker (Redis [Job (Some "a") (Some "1") None None] [] true false) 0 [] 0.
Proof.
  split; [split; reflexivity|].
  exact (proj1 (execute_error_keeps_lock ready_to_claim 0%nat 1000 true eq_refl eq_refl)).
Defined.

(** X4: when the job body has succeeded and the poll for the
    ["processing"] lock raises, or the poll takes the lock and [lrem]
    raises, the call ends with the job's record still in ["processing"];
    in the second case the lock key is left set.  The record of a job
    that was executed is then the sweeper's to move back to ["todo"]. *)
Theorem resolve_error_keeps_record w i now ok copy :
  cycles w !! i = Some (AwaitProcessing copy) →
  let ended r := Worker r (running w - 1) (delete i (cycles w)) (sweepers w) in
  step (Advance i now ok [true]) w = ended (store w) ∧
  (processing_lock (store w) = false →
   step (Advance i now ok [false; true]) w =
     ended (set_lock Processing true (store w))).
Proof.
  intros Hc ended. unfold ended. simpl. unfold execute_resume. rewrite Hc.
  destruct (store w) as [t p lt lp]. simpl. split; [reflexivity|].
  intros ->. reflexivity.
Qed.

Lemma resolve_error_keeps_record_witness :
  cycles (run body_succeeded init) !! 0%nat =
    Some (AwaitProcessing (Job (Some "a") (Some "1") (Some 0) (Some 1))) ∧
  step (Advance 0 5000 true [false; true]) (run body_succeeded init) =
    Worker (Redis [] [Job (Some "a") (Some "1") (Some 0) (Some 1)] false true) 0 [] 0.
Proof.
  split; [reflexivity|].
  exact (proj2 (resolve_error_keeps_record (run body_succeeded init) 0%nat 5000 true
                  (Job (Some "a") (Some "1") (Some 0) (Some 1)) eq_refl) eq_refl).
Defined.

(** ** Polls that find the lock taken *)

(** X5: a poll of [acquireLock] that finds the lock key set, and does not
    raise, changes nothing at all: the call of [execute] or of [retry]
    stays where it is, and the store, the counter and the other calls
    are as they were. *)
Theorem poll_on_taken_lock_waits w now ok plan :
  head plan ≠ Some true →
  (∀ i, cycles w !! i = Some AwaitTodo → todo_lock (store w) = true →
        step (Advance i now ok plan) w = w) ∧
  (∀ i copy, cycles w !! i = Some (AwaitProcessing copy) →
        processing_lock (store w) = true →
        step (Advance i now ok plan) w = w) ∧
  (processing_lock (store w) = true → step (SweepPoll now plan) w = w).
Proof.
  intros Hp. destruct w as [[t p lt lp] r cs sw]. simpl. repeat split.
  - intros i Hc ->. unfold execute_resume. simpl. rewrite Hc.
    destruct plan as [|[] plan]; simpl in Hp; try congruence; simpl;
      f_equal; apply list_insert_id, Hc.
  - intros i copy Hc ->. unfold execute_resume. simpl. rewrite Hc.
    destruct plan as [|[] plan]; simpl in Hp; try congruence; simpl;
      f_equal; apply list_insert_id, Hc.
  - intros ->. unfold retry. simpl. destruct sw as [|m]; [reflexivity|].
    destruct plan as [|[] plan]; simpl in Hp; try congruence; reflexivity.
Qed.

Lemma poll_on_taken_lock_waits_witness :
  head (@nil bool) ≠ Some true ∧
  step (Advance 0 1000 true []) waiting_for_lock = waiting_for_lock.
Proof.
  assert (H : head (@nil bool) ≠ Some true) by discriminate.
  split; [exact H|].
  exact (proj1 (poll_on_taken_lock_waits waiting_for_lock 1000 true [] H)
           0%nat eq_refl eq_refl).
Defined.

(** ** Where the records come from *)

(** What a resumption makes of the call. *)
Lemma execute_body_next c now ok r plan c' :
  (execute_body c now ok (Conn r plan)).1 = Ok (Some c') →
  c' = c ∨
  (c = AwaitTodo ∧ ∃ h, head (todo r) = Some h ∧ c' = Executing (stamp now h)) ∨
  (∃ copy, c = Executing copy ∧ c' = AwaitProcessing copy).
Proof.
  destruct c as [|copy|copy]; simpl.
  - destruct r as [[|h t] p [] lp]; unfold execute_claim;
      split_plan plan; run_io; intros [= <-]; eauto 6.
  - destruct ok; run_io; [intros [= <-]; eauto | discriminate].
  - destruct r as [t p lt []]; unfold execute_resolve;
      split_plan plan; run_io; intros [= <-]; eauto.
Qed.

Lemma elem_of_insert_inv {A} (l : list A) (i : nat) (x y : A) :
  y ∈ <[i:=x]> l → y = x ∨ y ∈ l.
Proof.
  revert i. induction l as [|z l IH]; intros [|i]; simpl; rewrite ?elem_of_cons; auto.
  - intros [->|H]; auto.
  - intros [->|H]; [auto|]. apply IH in H as [->|H]; auto.
Qed.

Lemma copies_insert (cs : list cycle) (i : nat) c' j :
  j ∈ omap copy_of (<[i:=c']> cs) → j ∈ omap copy_of cs ∨ copy_of c' = Some j.
Proof.
  rewrite !list_elem_of_omap. intros (x & Hx & Hj).
  apply elem_of_insert_inv in Hx as [->|Hx]; eauto.
Qed.

Lemma copies_delete (cs : list cycle) (i : nat) j :
  j ∈ omap copy_of (delete i cs) → j ∈ omap copy_of cs.
Proof.
  rewrite !list_elem_of_omap. intros (x & Hx & Hj). exists x. split; [|exact Hj].
  eapply list_elem_of_delete_inv, Hx.
Qed.

(** A property of records that the stamp keeps and the new record of a
    request has is kept by every event. *)
Lemma step_records (P : job → Prop) e w :
  (∀ now h, P h → P (stamp now h)) →
  (∀ n i plan, e = Post n i plan → P (Job n i None None)) →
  (∀ j, j ∈ records w → P j) →
  ∀ j, j ∈ records (step e w) → P j.
Proof.
  intros Hstamp Hpost Hold j. unfold records in *.
  rewrite (assoc_L (++)), elem_of_app. intros [Hj|Hj].
  - destruct (step_lists e w) as [[now H]|(n & i & plan & -> & H)]; unfold lists in H.
    + destruct (handoff_records _ _ _ _ _ j H Hj) as [Hin|(h & Hh & ->)].
      * apply Hold. rewrite (assoc_L (++)). apply elem_of_app. auto.
      * apply Hstamp, Hold. destruct (todo (store w)) as [|x t]; [discriminate|].
        injection Hh as ->. left.
    + destruct (store (step (Post n i plan) w)) as [t' p' lt' lp']. simpl in H, Hj.
      injection H as -> ->. rewrite <- (assoc_L (++)) in Hj.
      apply elem_of_app in Hj as [Hj|Hj]; [apply Hold, elem_of_app; auto|].
      apply elem_of_cons in Hj as [->|Hj]; [eapply Hpost; reflexivity|].
      apply Hold. rewrite !elem_of_app. auto.
  - assert (Hc : ∀ x, x ∈ copies w → P x).
    { intros x Hx. apply Hold. rewrite !elem_of_app. auto. }
    destruct e as [n i plan| |i now ok plan| |now plan|key]; simpl in Hj;
      try (apply Hc; exact Hj).
    + unfold execute_enter in Hj. destruct (running w <? MAX_JOBS); [|auto].
      unfold copies in Hj. simpl in Hj. rewrite omap_app in Hj. simpl in Hj.
      rewrite app_nil_r in Hj. auto.
    + unfold execute_resume in Hj. destruct (cycles w !! i) as [c|] eqn:Hci; [|auto].
      pose proof (execute_body_next c now ok (store w) plan) as Hnext.
      destruct (execute_body c now ok (Conn (store w) plan)) as [[[c'|]|] k];
        unfold copies in Hj; simpl in Hj;
        try (apply Hc; eapply copies_delete, Hj).
      apply copies_insert in Hj as [Hj|Hj]; [auto|].
      destruct (Hnext c' eq_refl) as [->|[(-> & h & Hh & ->)|(copy & -> & ->)]].
      * apply Hc. unfold copies. apply list_elem_of_omap. exists c.
        split; [eapply list_elem_of_lookup_2, Hci | exact Hj].
      * injection Hj as <-. apply Hstamp, Hold.
        destruct (todo (store w)) as [|x t]; [discriminate|]. injection Hh as ->. left.
      * injection Hj as <-. apply Hc. unfold copies. apply list_elem_of_omap.
        exists (Executing copy). split; [eapply list_elem_of_lookup_2, Hci | reflexivity].
    + unfold retry in Hj. destruct (sweepers w); [auto|].
      destruct (retry_body now (Conn (store w) plan)) as [[[]|] k]; auto.
Qed.

Lemma requests_snoc evs e : requests (evs ++ [e]) = requests evs ++ requests [e].
Proof. unfold requests. apply omap_app. Qed.

(** X6: the worker neither invents a job nor alters what it was asked to
    do: in every state it reaches, each record in ["todo"], in
    ["processing"] or held by a call of [execute] carries the [name] and
    the [id] of one of the requests. *)
Theorem records_come_from_requests evs j :
  j ∈ records (run evs init) → (name j, id j) ∈ requests evs.
Proof.
  revert j. induction evs as [|e evs IH] using rev_ind; intros j.
  - intros Hj. inversion Hj.
  - rewrite run_snoc, requests_snoc.
    apply (step_records (λ j, (name j, id j) ∈ requests evs ++ requests [e])).
    + auto.
    + intros n i plan ->. apply elem_of_app. right. left.
    + intros x Hx. apply elem_of_app. left. auto.
Qed.

Lemma records_come_from_requests_witness :
  Job (Some "a") (Some "1") (Some 0) (Some 1) ∈ records (run body_succeeded init) ∧
  (Some "a", Some "1") ∈ requests body_succeeded.
Proof.
  assert (H : Job (Some "a") (Some "1") (Some 0) (Some 1) ∈ records (run body_succeeded init)).
  { vm_compute. left. }
  split; [exact H|].
  exact (records_come_from_requests body_succeeded _ H).
Defined.

(** ** What the sweeper drops *)

Lemma handoff_timestamps now t p t' p' :
  handoff now (t, p) (t', p') →
  (∀ j, j ∈ p → is_Some (timestamp j)) → ∀ j, j ∈ p' → is_Some (timestamp j).
Proof.
  inversion 1 as [t0 p0|h t0 p0|copy t0 p0|h t0 p0 Hs Hl|h t0 p0 Hs Hl]; subst;
    intros Hp j Hj; auto.
  - apply elem_of_app in Hj as [Hj|Hj]; [auto|].
    apply list_elem_of_singleton in Hj as ->. simpl. eauto.
  - eapply Hp, elem_of_remove_first, Hj.
  - apply Hp. right. exact Hj.
  - apply Hp. right. exact Hj.
Qed.

Lemma timestamps_invariant evs j :
  j ∈ processing (store (run evs init)) → is_Some (timestamp j).
Proof.
  revert j. induction evs as [|e evs IH] using rev_ind; intros j.
  - intros Hj. inversion Hj.
  - rewrite run_snoc. set (w := run evs init) in *.
    destruct (step_lists e w) as [[now H]|(n & i & plan & -> & H)]; unfold lists in H.
    + intros Hj. eapply handoff_timestamps; eauto.
    + assert (Hp := f_equal snd H). cbn [snd] in Hp. rewrite Hp. apply IH.
Qed.

(** X7: in every state the worker reaches, each record in
    ["processing"] has a [timestamp] and a [tries] between 1 and 3, so
    the sweeper never compares with [NaN]; and when a call of [retry]
    takes the head out of ["processing"] without appending it to
    ["todo"], that head was stale and on its third try: no job is dropped
    before it has been claimed three times. *)
Theorem dropped_only_after_three_tries evs :
  let w := run evs init in
  (∀ j, j ∈ processing (store w) →
     is_Some (timestamp j) ∧ ∃ n, tries j = Some n ∧ 1 ≤ n ≤ 3) ∧
  (∀ now plan h p,
     processing (store w) = h :: p →
     processing (store (step (SweepPoll now plan) w)) = p →
     todo (store (step (SweepPoll now plan) w)) = todo (store w) →
     stale now h = true ∧ tries h = Some 3).
Proof.
  intros w. destruct (tries_invariant evs) as [_ Hcl]. fold w in Hcl.
  unfold lists in Hcl. simpl in Hcl. split.
  - intros j Hj. split; [eapply timestamps_invariant, Hj | apply Hcl, Hj].
  - intros now plan h p Hh Hp Ht. simpl in Hp, Ht.
    destruct (retry_lists now plan w) as [H|H]; unfold lists in H; injection H as Ht' Hp'.
    + rewrite Hp', Hh in Hp. apply (f_equal length) in Hp. simpl in Hp. lia.
    + rewrite Ht' in Ht. rewrite Hp' in Hp. clear Ht' Hp'.
      unfold swept in Ht, Hp. rewrite Hh in Ht, Hp.
      destruct (stale now h) eqn:Hs.
      * unfold tries_left in Ht. destruct (Hcl h) as (n & Hn & Hb); [rewrite Hh; left|].
        rewrite Hn in Ht |- *. destruct (Z.ltb_spec n 3); simpl in Ht.
        -- apply (f_equal length) in Ht. rewrite length_app in Ht. simpl in Ht. lia.
        -- split; [reflexivity | f_equal; lia].
      * simpl in Hp. rewrite Hh in Hp.
        apply (f_equal length) in Hp. simpl in Hp. lia.
Qed.

Lemma dropped_only_after_three_tries_witness :
  (processing (store (run (take 15 three_tries) init)) =
     [Job (Some "a") (Some "1") (Some 1800000) (Some 3)] ∧
   processing (store (step (SweepPoll 2400000 []) (run (take 15 three_tries) init))) = []) ∧
  stale 2400000 (Job (Some "a") (Some "1") (Some 1800000) (Some 3)) = true ∧
  tries (Job (Some "a") (Some "1") (Some 1800000) (Some 3)) = Some 3.
Proof.
  split; [split; reflexivity|].
  exact (proj2 (dropped_only_after_three_tries (take 15 three_tries))
           2400000 [] (Job (Some "a") (Some "1") (Some 1800000) (Some 3)) []
           eq_refl eq_refl eq_refl).
Defined.

(** ** First in, first out *)






(** ** A lock that is left set *)

Lemma execute_body_stuck k c now ok r plan :
  lock k r = true →
  lock k (db (execute_body c now ok (Conn r plan)).2) = true ∧
  llist k r `prefix_of` llist k (db (execute_body c now ok (Conn r plan)).2).
Proof.
  destruct c as [|copy|copy]; simpl.
  - destruct k, r as [[|h t] p [] lp]; simpl; intros Hl; try discriminate Hl; subst;
      unfold execute_claim; split_plan plan; run_io; stuck_done.
  - intros Hl. destruct ok; run_io; split; auto.
  - destruct k, r as [t p lt []]; simpl; intros Hl; try discriminate Hl; subst;
      unfold execute_resolve; split_plan plan; run_io; stuck_done.
Qed.

Lemma retry_body_stuck k now r plan :
  lock k r = true →
  lock k (db (retry_body now (Conn r plan)).2) = true ∧
  llist k r `prefix_of` llist k (db (retry_body now (Conn r plan)).2).
Proof.
  destruct k, r as [t [|h p] lt []]; simpl; intros Hl; try discriminate Hl; subst;
    unfold retry_body;
    try (split_plan plan; run_io; stuck_done);
    destruct (stale now h) eqn:Hs;
    try (split_plan plan; run_io; rewrite ?Hs; run_io; stuck_done);
    destruct (tries_left h) eqn:Ht;
    split_plan plan; run_io; rewrite ?Hs, ?Ht; run_io; stuck_done.
Qed.

Lemma step_stuck k e w :
  e ≠ Expire k → lock k (store w) = true →
  lock k (store (step e w)) = true ∧
  llist k (store w) `prefix_of` llist k (store (step e w)).
Proof.
  intros He Hl. destruct e as [n i plan| |i now ok plan| |now plan|key]; simpl.
  - destruct k, (store w) as [t p lt lp]; simpl in *;
      destruct plan as [|[] plan]; simpl;
      (split; [exact Hl | first [reflexivity | apply prefix_app_r; reflexivity]]).
  - unfold execute_enter. destruct (running w <? MAX_JOBS); simpl; split; auto.
  - unfold execute_resume. destruct (cycles w !! i) as [c|]; [|split; auto].
    pose proof (execute_body_stuck k c now ok (store w) plan Hl) as H.
    destruct (execute_body c now ok (Conn (store w) plan)) as [[[c'|]|] x]; exact H.
  - split; auto.
  - unfold retry. destruct (sweepers w) as [|m]; [split; auto|].
    pose proof (retry_body_stuck k now (store w) plan Hl) as H.
    destruct (retry_body now (Conn (store w) plan)) as [[[]|] x]; exact H.
  - destruct k, key, (store w) as [t p lt lp]; simpl in *; try congruence; split; auto.
Qed.

(** X9: nothing but the expiry clears a lock key that a call has left
    set.  From a state in which the lock key of a list is set, and over
    any events other than the expiry of that key, the key stays set and
    the list keeps every record it has, in place: with the ["todo"] key
    no job is claimed, with the ["processing"] key no record is swept or
    removed; records are only appended. *)
Theorem stuck_lock_needs_expiry k evs w :
  lock k (store w) = true → no_expiry k evs →
  lock k (store (run evs w)) = true ∧
  llist k (store w) `prefix_of` llist k (store (run evs w)).
Proof.
  revert w. induction evs as [|e evs IH]; intros w Hl Hn; [split; auto|].
  apply Forall_cons in Hn as [He Hn].
  destruct (step_stuck k e w He Hl) as [Hl' Hp].
  destruct (IH (step e w) Hl' Hn) as [Hl'' Hp'].
  change (run (e :: evs) w) with (run evs (step e w)).
  split; [exact Hl'' | etrans; eassumption].
Qed.

Lemma stuck_lock_needs_expiry_witness :
  (lock Todo (store waiting_for_lock) = true ∧
   no_expiry Todo [Advance 0 1000 true []; Post (Some "b") (Some "2") []; Tick;
                   Advance 1 2000 true []; Expire Processing]) ∧
  todo (store (run [Advance 0 1000 true []; Post (Some "b") (Some "2") []; Tick;
                    Advance 1 2000 true []; Expire Processing] waiting_for_lock)) =
    [Job (Some "a") (Some "1") None None; Job (Some "b") (Some "2") None None] ∧
  lock Todo (store (run [Advance 0 1000 true []; Post (Some "b") (Some "2") []; Tick;
                         Advance 1 2000 true []; Expire Processing] waiting_for_lock)) = true.
Proof.
  assert (Hn : no_expiry Todo [Advance 0 1000 true []; Post (Some "b") (Some "2") []; Tick;
                               Advance 1 2000 true []; Expire Processing])
    by (repeat constructor; discriminate).
  split; [split; [reflexivity | exact Hn]|]. split; [reflexivity|].
  exact (proj1 (stuck_lock_needs_expiry Todo _ waiting_for_lock eq_refl Hn)).
Defined.

(** ** A whole call of [execute] *)

Lemma lookup_snoc {A} (l : list A) (x : A) : (l ++ [x]) !! length l = Some x.
Proof. apply list_lookup_middle. reflexivity. Qed.

Lemma insert_snoc {A} (l : list A) (x y : A) : <[length l:=y]> (l ++ [x]) = l ++ [y].
Proof.
  rewrite insert_app_r_alt by lia. rewrite Nat.sub_diag. reflexivity.
Qed.

Lemma delete_snoc {A} (l : list A) (x : A) : delete (length l) (l ++ [x]) = l.
Proof. rewrite delete_middle. apply app_nil_r. Qed.

Lemma execute_enter_free w :
  running w < MAX_JOBS →
  step Tick w = Worker (store w) (running w + 1) (cycles w ++ [AwaitTodo]) (sweepers w).
Proof.
  intros H. simpl. unfold execute_enter.
  destruct (Z.ltb_spec (running w) MAX_JOBS); [reflexivity | lia].
Qed.

Lemma execute_resume_body w i now ok plan copy :
  cycles w !! i = Some (Executing copy) →
  execute_resume i now ok plan w =
    if ok
    then Worker (store w) (running w) (<[i:=AwaitProcessing copy]> (cycles w)) (sweepers w)
    else Worker (store w) (running w - 1) (delete i (cycles w)) (sweepers w).
Proof.
  intros Hc. unfold execute_resume. rewrite Hc. destruct ok, (store w); reflexivity.
Qed.

Lemma execute_resume_resolve w i now ok plan copy :
  cycles w !! i = Some (AwaitProcessing copy) →
  processing_lock (store w) = false → no_fault plan →
  execute_resume i now ok plan w =
    Worker (Redis (todo (store w)) (remove_first copy (processing (store w)))
                  (todo_lock (store w)) false)
           (running w - 1) (delete i (cycles w)) (sweepers w).
Proof.
  intros Hc Hl Hp. unfold execute_resume. rewrite Hc. simpl.
  destruct (execute_resolve_ok copy plan (store w) Hp Hl) as [Hv Hd].
  destruct (execute_resolve copy (Conn (store w) plan)) as [o k]. simpl in *. subst o.
  rewrite Hd. reflexivity.
Qed.

Lemma remove_first_snoc v l : v ∉ l → remove_first v (l ++ [v]) = l.
Proof.
  induction l as [|x l IH]; simpl; intros Hv.
  - destruct (decide (v = v)); congruence.
  - apply not_elem_of_cons in Hv as [Hne Hv].
    destruct (decide (x = v)); [congruence|]. rewrite IH by assumption. reflexivity.
Qed.

(** X10: a job that succeeds leaves no trace.  On an empty ["todo"],
    with both locks free, the counter below [MAX_JOBS] and no command
    raising, a request, a call of [execute] that claims it at time [now],
    the success of the job body and the removal bring the worker back to
    the state it was in, provided ["processing"] held no record equal to
    the stamped one. *)
Theorem successful_job_leaves_no_trace w n i now t1 t2 :
  todo (store w) = [] →
  todo_lock (store w) = false → processing_lock (store w) = false →
  running w < MAX_JOBS →
  stamp now (Job n i None None) ∉ processing (store w) →
  let k := length (cycles w) in
  run [Post n i []; Tick; Advance k now true []; Advance k t1 true [];
       Advance k t2 true []] w = w.
Proof.
  intros Ht Hlt Hlp Hr Hp k. unfold run. simpl foldl.
  destruct w as [[t p lt lp] r cs sw]. simpl in *. subst t lt lp.
  unfold k. clear k. unfold execute_enter. simpl.
  replace (r <? MAX_JOBS) with true by (symmetry; apply Z.ltb_lt, Hr).
  rewrite (execute_resume_claim _ _ now true [] (Job n i None None) []);
    try reflexivity; [|simpl; apply lookup_snoc | constructor].
  simpl. rewrite insert_snoc.
  rewrite (execute_resume_body _ _ t1 true [] (stamp now (Job n i None None)));
    [|simpl; apply lookup_snoc].
  simpl. rewrite insert_snoc.
  rewrite (execute_resume_resolve _ _ t2 true [] (stamp now (Job n i None None)));
    try reflexivity; [|simpl; apply lookup_snoc | constructor].
  simpl. rewrite delete_snoc, remove_first_snoc by assumption.
  f_equal. lia.
Qed.

Lemma successful_job_leaves_no_trace_witness :
  (todo (store init) = [] ∧ running init < MAX_JOBS) ∧
  run [Post (Some "a") (Some "1") []; Tick; Advance 0 1000 true [];
       Advance 0 6000 true []; Advance 0 11000 true []] init = init.
Proof.
  split; [split; reflexivity|].
  exact (successful_job_leaves_no_trace init (Some "a") (Some "1") 1000 6000 11000
           eq_refl eq_refl eq_refl eq_refl ltac:(intros H; inversion H)).
Defined.

(** ** A job body that outlives the ten minutes *)

(** X11: a job can be executing twice at once.  If a job body is still
    executing when its record, at the head of ["processing"], has become
    stale with [tries] below 3, a sweep moves the record to ["todo"], and
    the next call of [execute] claims it and starts a second body for the
    same [name] and [id] while the first is still executing. *)
Theorem stale_job_executes_twice w i copy p m ts n now now' :
  cycles w !! i = Some (Executing copy) →
  store w = Redis [] (copy :: p) false false →
  sweepers w = S m → running w < MAX_JOBS →
  timestamp copy = Some ts → 10 * 60 * 1000 ≤ now - ts →
  tries copy = Some n → n < 3 →
  let w' := run [SweepPoll now []; Tick; Advance (length (cycles w)) now' true []] w in
  cycles w' !! i = Some (Executing copy) ∧
  cycles w' !! length (cycles w) = Some (Executing (stamp now' copy)) ∧
  name (stamp now' copy) = name copy ∧ id (stamp now' copy) = id copy ∧
  store w' = Redis [] (p ++ [stamp now' copy]) false false.
Proof.
  intros Hc Hs Hm Hr Hts Hst Hn Hlt w'. unfold w', run. simpl foldl.
  assert (Hsw : retry now [] w = Worker (Redis [copy] p false false)
                                         (running w) (cycles w) m).
  { change (retry now [] w) with (step (SweepPoll now []) w).
    rewrite (retry_swept now [] w m Hm); [|rewrite Hs; reflexivity|constructor].
    rewrite Hs. unfold swept, stale, tries_left. simpl. rewrite Hts, Hn.
    destruct (Z.leb_spec (10 * 60 * 1000) (now - ts)); [|lia].
    destruct (Z.ltb_spec n 3); [reflexivity | lia]. }
  rewrite Hsw. unfold execute_enter. simpl.
  replace (running w <? MAX_JOBS) with true by (symmetry; apply Z.ltb_lt, Hr).
  rewrite (execute_resume_claim _ _ now' true [] copy []);
    try reflexivity; [|simpl; apply lookup_snoc | constructor].
  simpl. rewrite insert_snoc. repeat split.
  - apply lookup_app_l_Some, Hc.
  - apply lookup_snoc.
Qed.

Lemma stale_job_executes_twice_witness :
  (cycles still_executing !! 0%nat =
     Some (Executing (Job (Some "a") (Some "1") (Some 0) (Some 1))) ∧
   10 * 60 * 1000 ≤ 600000 - 0) ∧
  cycles (run [SweepPoll 600000 []; Tick; Advance 1 600001 true []] still_executing)
    !! 0%nat = Some (Executing (Job (Some "a") (Some "1") (Some 0) (Some 1))) ∧
  cycles (run [SweepPoll 600000 []; Tick; Advance 1 600001 true []] still_executing)
    !! 1%nat = Some (Executing (Job (Some "a") (Some "1") (Some 600001) (Some 2))).
Proof.
  split; [split; [reflexivity | lia]|].
  destruct (stale_job_executes_twice still_executing 0%nat
              (Job (Some "a") (Some "1") (Some 0) (Some 1)) [] 0%nat 0 1 600000 600001
              eq_refl eq_refl eq_refl eq_refl eq_refl
              ltac:(vm_compute; discriminate) eq_refl eq_refl) as (H1 & H2 & _).
  split; [exact H1 | exact H2].
Defined.

(** ** The lock *)

(** X12: the lock excludes but has no owner.  When a poll of
    [acquireLock] has taken the key, a second poll for the same key,
    whoever makes it, replies that it did not and leaves the store as it
    is; and [releaseLock] deletes the key whoever set it, so that from
    any store a poll made right after a [releaseLock] takes the key. *)
Theorem lock_excludes_without_owner k r plan :
  no_fault plan →
  (lock k r = false →
   (first <- acquireLock k ;; second <- acquireLock k ;; ret (first, second))%io
     (Conn r plan) =
   (Ok (true, false), Conn (set_lock k true r) (tail (tail plan)))) ∧
  (releaseLock k ;; acquireLock k)%io (Conn r plan) =
    (Ok true, Conn (set_lock k true r) (tail (tail plan))) ∧
  (releaseLock k ;; releaseLock k)%io (Conn r plan) =
    (Ok tt, Conn (set_lock k false r) (tail (tail plan))).
Proof.
  intros Hp. destruct k, r as [t p lt lp]; simpl;
    (split; [intros ->|split]);
    destruct plan as [|[] [|[] plan]]; kill_faults; reflexivity.
Qed.

Lemma lock_excludes_without_owner_witness :
  no_fault [] ∧
  (releaseLock Todo ;; acquireLock Todo)%io (Conn (store waiting_for_lock) []) =
    (Ok true, Conn (store waiting_for_lock) []).
Proof.
  split; [constructor|].
  exact (proj1 (proj2 (lock_excludes_without_owner Todo (store waiting_for_lock) []
                         no_fault_nil))).
Defined.

(** ** The queue in memory *)

Lemma memory_run_snoc evs e s :
  Memory.run (evs ++ [e]) s = Memory.step e (Memory.run evs s).
Proof. unfold Memory.run. rewrite foldl_snoc. reflexivity. Qed.

Lemma memory_failures_snoc evs e s :
  Memory.failures (evs ++ [e]) s =
    (Memory.failures evs s + Memory.failure_of e (Memory.run evs s))%nat.
Proof.
  revert s. induction evs as [|e' evs IH]; intros s; simpl; [lia|].
  rewrite IH. unfold Memory.run. simpl. lia.
Qed.

Lemma memory_counter_invariant evs :
  let s := Memory.run evs Memory.init in
  Memory.running s =
    Z.of_nat (length (Memory.bodies s)) + Z.of_nat (Memory.failures evs Memory.init) ∧
  Memory.running s ≤ MAX_JOBS.
Proof.
  induction evs as [|e evs IH] using rev_ind.
  - split; [reflexivity | unfold MAX_JOBS; simpl; lia].
  - rewrite memory_run_snoc, memory_failures_snoc. simpl in IH.
    set (s := Memory.run evs Memory.init) in *. destruct IH as [Hr Hm].
    unfold MAX_JOBS in *. destruct e as [n i| |i ok]; simpl.
    + split; lia.
    + unfold Memory.execute.
      destruct (Z.ltb_spec (Memory.running s) MAX_JOBS); unfold MAX_JOBS in *; simpl;
        [|split; lia].
      destruct (Memory.queue s) as [|j q]; simpl; [split; lia|].
      rewrite length_app. simpl. split; lia.
    + unfold Memory.settle. destruct (Memory.bodies s !! i) as [b|] eqn:Hb.
      * assert (Hlen : (length (delete i (Memory.bodies s)) =
                        length (Memory.bodies s) - 1)%nat)
          by (apply length_delete; eauto).
        apply lookup_lt_Some in Hb. destruct ok; simpl; split; lia.
      * destruct ok; simpl; split; lia.
Qed.

(** X13: in the queue in memory a job body that rejects is never
    counted down: in every state, [running] is the number of job bodies
    executing plus the number of job bodies that have rejected so far,
    and it never exceeds [MAX_JOBS]; so each failure takes one of the
    three places for good. *)
Theorem memory_counter_leaks evs :
  let s := Memory.run evs Memory.init in
  Memory.running s =
    Z.of_nat (length (Memory.bodies s)) + Z.of_nat (Memory.failures evs Memory.init) ∧
  Memory.running s ≤ MAX_JOBS ∧
  (length (Memory.bodies s) + Memory.failures evs Memory.init ≤ 3)%nat.
Proof.
  intros s. destruct (memory_counter_invariant evs) as [H1 H2]. fold s in H1, H2.
  unfold MAX_JOBS in *. repeat split; [exact H1 | exact H2 | lia].
Qed.



Lemma memory_started_app evs evs' s :
  Memory.started (evs ++ evs') s =
    Memory.started evs s ++ Memory.started evs' (Memory.run evs s).
Proof.
  revert s. induction evs as [|e evs IH]; intros s; [reflexivity|].
  simpl. rewrite IH, (assoc_L (++)). reflexivity.
Qed.



Lemma memory_posted_snoc evs e :
  Memory.posted (evs ++ [e]) = Memory.posted evs ++ Memory.posted [e].
Proof. unfold Memory.posted. apply omap_app. Qed.

(** X15: the queue in memory starts the jobs in the order of the
    requests and holds each job once: the requests of a trace are, in
    order, the jobs that were started, in the order of their start,
    followed by the jobs still in the array.  A started job is no longer
    in the array, so a job whose body rejects is not run again. *)
Theorem memory_first_in_first_out evs :
  Memory.posted evs =
    Memory.started evs Memory.init ++ Memory.queue (Memory.run evs Memory.init).
Proof.
  induction evs as [|e evs IH] using rev_ind; [reflexivity|].
  rewrite memory_posted_snoc, memory_started_app, memory_run_snoc, IH, <- !(assoc_L (++)).
  f_equal. set (s := Memory.run evs Memory.init). simpl. rewrite app_nil_r.
  destruct e as [n i| |i ok]; simpl.
  - reflexivity.
  - unfold Memory.posted, Memory.execute. simpl. rewrite app_nil_r.
    destruct (Memory.queue s) as [|j q] eqn:Hq; simpl.
    + rewrite andb_false_r. simpl. rewrite Hq. reflexivity.
    + rewrite andb_true_r. destruct (Memory.running s <? MAX_JOBS); simpl;
        rewrite ?Hq; reflexivity.
  - unfold Memory.posted, Memory.settle. simpl. rewrite app_nil_r.
    destruct (Memory.bodies s !! i); [destruct ok|]; reflexivity.
Qed.
